(** * indigo-stubs: the package discovery of [setup.py]

    [setup.py] walks the directory [indigo-stubs] with [os.walk], turns the
    path of every directory visited into a dotted package name

      ".".join(os.path.relpath(root, src_path).split(os.path.sep))

    and hands the names, with literal metadata, to [setup].

    The development has three layers:
    - the string and path primitives the script calls ([str.split],
      [str.join], and [join], [normpath], [abspath], [commonprefix],
      [relpath] of CPython's [posixpath]), written out after their Python
      text, on POSIX ([os.path.sep] is "/");
    - the file system and [os.walk] (top-down, [onerror=None],
      [followlinks=False]) and generators as the finite trace of what they
      yield and how they stop;
    - [list_packages] and the [setup] call of the script, and the
      properties of the specification.

    The file system is a tree of directories and regular files that does
    not change during the walk; a directory may refuse to be listed.
    Symbolic links are left out. A string is the sequence of the bytes of
    a path; a path that holds a NUL byte names nothing, and [os.scandir]
    refuses it with [ValueError]. The working directory of the process
    exists: [os.getcwd()] returns. *)

From Stdlib Require Import List Bool Arith Lia.
From Stdlib Require Import Ascii String.
Import ListNotations.

Local Open Scope string_scope.
Local Open Scope list_scope.

(** ** Python strings *)

Module Str.

(** [s.startswith(c)] and [s.endswith(c)] for a one-character [c]. *)
Definition startswith (s : string) (c : ascii) : bool :=
  match s with
  | EmptyString => false
  | String a _ => Ascii.eqb a c
  end.

Fixpoint endswith (s : string) (c : ascii) : bool :=
  match s with
  | EmptyString => false
  | String a EmptyString => Ascii.eqb a c
  | String _ s' => endswith s' c
  end.

(** [not s]: a Python string is falsy exactly when it is empty. *)
Definition is_empty (s : string) : bool :=
  match s with
  | EmptyString => true
  | String _ _ => false
  end.

(** [s.split(c)] for a one-character separator: the pieces between the
    occurrences of [c]; the empty string splits into one empty piece. *)
Fixpoint split (c : ascii) (s : string) : list string :=
  match s with
  | EmptyString => [EmptyString]
  | String a s' =>
      if Ascii.eqb a c then EmptyString :: split c s'
      else match split c s' with
           | [] => [String a EmptyString]
           | piece :: pieces => String a piece :: pieces
           end
  end.

(** [sep.join(pieces)]. *)
Definition join (sep : string) (pieces : list string) : string :=
  String.concat sep pieces.

(** [c in s] for a character [c]. *)
Fixpoint contains (c : ascii) (s : string) : bool :=
  match s with
  | EmptyString => false
  | String a s' => Ascii.eqb a c || contains c s'
  end.

(** [c * n]. *)
Fixpoint repeat (c : ascii) (n : nat) : string :=
  match n with
  | O => EmptyString
  | S n' => String c (repeat c n')
  end.

End Str.

(** ** Exceptions and results *)

Inductive exn : Type :=
| ValueError (msg : string)
| FileNotFoundError (path : string)
| NotADirectoryError (path : string)
| PermissionError (path : string)
| OtherError (what : string).

(** The subclasses of [OSError]. *)
Definition is_OSError (e : exn) : bool :=
  match e with
  | FileNotFoundError _ | NotADirectoryError _ | PermissionError _ => true
  | ValueError _ | OtherError _ => false
  end.

Inductive result (A : Type) : Type :=
| Ok (a : A)
| Raise (e : exn).
Arguments Ok {A} a.
Arguments Raise {A} e.

(** ** posixpath *)

Module PosixPath.

Definition sep_char : ascii := "/"%char.
Definition sep : string := "/".
Definition curdir : string := ".".
Definition pardir : string := "..".

Definition isabs (s : string) : bool := Str.startswith s sep_char.

(** One round of the loop of [join(a, *p)]:
<<
    if b.startswith(sep):               path = b
    elif not path or path.endswith(sep): path += b
    else:                                path += sep + b
>> *)
Definition join2 (path b : string) : string :=
  if Str.startswith b sep_char then b
  else if Str.is_empty path || Str.endswith path sep_char then path ++ b
  else path ++ sep ++ b.

Definition join (a : string) (p : list string) : string :=
  fold_left join2 p a.

(** The number of leading slashes [normpath] keeps: POSIX allows one or two,
    three or more count as one. *)
Definition initial_slashes (path : string) : nat :=
  match path with
  | String a (String b (String c _)) =>
      if Ascii.eqb a sep_char then
        if Ascii.eqb b sep_char then
          if Ascii.eqb c sep_char then 1 else 2
        else 1
      else 0
  | String a (String b EmptyString) =>
      if Ascii.eqb a sep_char then
        if Ascii.eqb b sep_char then 2 else 1
      else 0
  | String a EmptyString => if Ascii.eqb a sep_char then 1 else 0
  | EmptyString => 0
  end.

(** The body of the loop of [normpath]; [new_comps] is kept in reverse,
    its last component first.
<<
    if comp in (empty, dot): continue
    if (comp != dotdot or (not initial_slashes and not new_comps) or
         (new_comps and new_comps[-1] == dotdot)):
        new_comps.append(comp)
    elif new_comps:
        new_comps.pop()
>> *)
Definition norm_step (slashes : nat) (rev_comps : list string) (comp : string)
  : list string :=
  if String.eqb comp "" || String.eqb comp curdir then rev_comps
  else if negb (String.eqb comp pardir)
          || (Nat.eqb slashes 0 && match rev_comps with [] => true | _ => false end)
          || match rev_comps with
             | last :: _ => String.eqb last pardir
             | [] => false
             end
       then comp :: rev_comps
       else match rev_comps with
            | _ :: rest => rest
            | [] => []
            end.

Definition norm_comps (slashes : nat) (comps : list string) : list string :=
  rev (fold_left (norm_step slashes) comps []).

Definition normpath (path : string) : string :=
  if Str.is_empty path then curdir
  else
    let slashes := initial_slashes path in
    let comps := norm_comps slashes (Str.split sep_char path) in
    let path' := (Str.repeat sep_char slashes ++ Str.join sep comps)%string in
    if Str.is_empty path' then curdir else path'.

(** [abspath] calls [os.getcwd()] for a path that is not absolute; [cwd]
    is what that call returns. *)
Definition abspath (cwd path : string) : string :=
  normpath (if isabs path then path else join cwd [path]).

(** Python's [a < b] on lists of strings. *)
Fixpoint list_lt (a b : list string) : bool :=
  match a, b with
  | [], [] => false
  | [], _ :: _ => true
  | _ :: _, [] => false
  | x :: a', y :: b' => if String.eqb x y then list_lt a' b' else String.ltb x y
  end.

(** The loop of [commonprefix] over [s1 = min(m)] and [s2 = max(m)]:
    [s1] up to the first index where the two differ. [s1 <= s2] keeps
    [s2[i]] in range. *)
Fixpoint common_run (s1 s2 : list string) : list string :=
  match s1, s2 with
  | c :: s1', d :: s2' => if String.eqb c d then c :: common_run s1' s2' else []
  | _, _ => []
  end.

(** [commonprefix([a, b])]. *)
Definition commonprefix (a b : list string) : list string :=
  let s1 := if list_lt b a then b else a in
  let s2 := if list_lt a b then b else a in
  common_run s1 s2.

(** [[x for x in s.split(sep) if x]]. *)
Definition nonempty_comps (s : string) : list string :=
  filter (fun x => negb (Str.is_empty x)) (Str.split sep_char s).

(** [relpath(path, start)] with [start] given:
<<
    if not path: raise ValueError("no path specified")
    start_list = [x for x in abspath(start).split(sep) if x]
    path_list = [x for x in abspath(path).split(sep) if x]
    i = len(commonprefix([start_list, path_list]))
    rel_list = [pardir] * (len(start_list)-i) + path_list[i:]
    if not rel_list: return curdir
    return join of the elements of rel_list
>> *)
Definition relpath (cwd path start : string) : result string :=
  if Str.is_empty path then Raise (ValueError "no path specified")
  else
    let start_list := nonempty_comps (abspath cwd start) in
    let path_list := nonempty_comps (abspath cwd path) in
    let i := List.length (commonprefix start_list path_list) in
    let rel_list :=
      List.repeat pardir (List.length start_list - i) ++ skipn i path_list in
    match rel_list with
    | [] => Ok curdir
    | first :: others => Ok (join first others)
    end.

End PosixPath.

(** ** The file system and [os.walk] *)

(** What lives at a path: a regular file, a directory with its entries in
    the order [os.scandir] lists them, or a directory the process may not
    list. Symbolic links are not modelled. *)
#[warnings="-register-all"]
Inductive node : Type :=
| File : node
| Dir : list (string * node) -> node
| Denied : node.

(** The process the script runs in: what [os.getcwd()] returns, and what
    lies at each path. *)
Record process : Type := {
  getcwd : string;
  entry_at : string -> option node
}.

(** The NUL byte. *)
Definition nul : ascii := Ascii.zero.

(** What the operating system finds at a path: no path that holds a NUL
    byte names anything. *)
Definition lookup (p : process) (path : string) : option node :=
  if Str.contains nul path then None else entry_at p path.

(** [os.scandir(path)] where the operating system finds [n] at [path]. *)
Definition scandir (path : string) (n : option node)
  : result (list (string * node)) :=
  match n with
  | None => Raise (FileNotFoundError path)
  | Some File => Raise (NotADirectoryError path)
  | Some Denied => Raise (PermissionError path)
  | Some (Dir entries) => Ok entries
  end.

(** [os.scandir(path)] in a process: a path with a NUL byte is refused
    before the operating system is asked, with a [ValueError], which is no
    [OSError]. *)
Definition os_scandir (p : process) (path : string)
  : result (list (string * node)) :=
  if Str.contains nul path then Raise (ValueError "embedded null byte")
  else scandir path (lookup p path).

(** [entry.is_dir()]. *)
Definition is_dir (n : node) : bool :=
  match n with
  | File => false
  | Dir _ | Denied => true
  end.

(** The lists [dirs] and [nondirs] that [os.walk] builds from the entries. *)
Definition dirs_of (entries : list (string * node)) : list string :=
  map fst (filter (fun e => is_dir (snd e)) entries).

Definition nondirs_of (entries : list (string * node)) : list string :=
  map fst (filter (fun e => negb (is_dir (snd e))) entries).

(** One element of the walk: [(top, dirs, nondirs)]. *)
Definition walk_item : Type := string * list string * list string.

Definition item_root (it : walk_item) : string := fst (fst it).

(** [os.walk(top)] below a node, top-down:
<<
    try: scandir_it = scandir(top)
    except OSError as error:
        if onerror is not None: onerror(error)
        continue
    ...
    yield top, dirs, nondirs
    for dirname in reversed(dirs):
        new_path = join(top, dirname)
        if followlinks or not islink(new_path): stack.append(new_path)
>>
    A path that cannot be listed yields nothing and the walk goes on; the
    stack is popped from its end, so the directories are entered in the
    order of [dirs]. *)
Fixpoint walk_node (top : string) (n : node) {struct n} : list walk_item :=
  match n with
  | Dir entries =>
      (top, dirs_of entries, nondirs_of entries)
      :: (fix walk_entries (es : list (string * node)) : list walk_item :=
            match es with
            | [] => []
            | (name, child) :: es' =>
                (if is_dir child
                 then walk_node (PosixPath.join top [name]) child
                 else [])
                ++ walk_entries es'
            end) entries
  | File | Denied => []
  end.

Definition walk_entries (top : string) (es : list (string * node))
  : list walk_item :=
  flat_map (fun e => if is_dir (snd e)
                     then walk_node (PosixPath.join top [fst e]) (snd e)
                     else []) es.

(** ** Generators *)

(** A generator that stops: what it yields, in order, and whether it ends
    by returning ([None]) or by raising. *)
Record gen (A : Type) : Type := {
  yielded : list A;
  raised : option exn
}.
Arguments yielded {A} g.
Arguments raised {A} g.

(** [for x in g: yield body(x)], where [g] yields [items] and then stops
    with [stop]; an exception of the body ends the loop and leaves it. *)
Fixpoint for_yield {A B : Type} (items : list A) (stop : option exn)
    (body : A -> result B) : gen B :=
  match items with
  | [] => {| yielded := []; raised := stop |}
  | x :: rest =>
      match body x with
      | Raise e => {| yielded := []; raised := Some e |}
      | Ok b =>
          let g := for_yield rest stop body in
          {| yielded := b :: yielded g; raised := raised g |}
      end
  end.

(** [list(g)]. *)
Definition list_of {A : Type} (g : gen A) : result (list A) :=
  match raised g with
  | Some e => Raise e
  | None => Ok (yielded g)
  end.

(** [os.walk(top)] in a process. The first [scandir] is that of [top]:
<<
    try: scandir_it = scandir(top)
    except OSError as error: ... continue
>>
    An [OSError] ends the walk with nothing yielded; any other exception
    is not caught and leaves the generator. *)
Definition os_walk (p : process) (top : string) : gen walk_item :=
  match os_scandir p top with
  | Ok entries => {| yielded := walk_node top (Dir entries); raised := None |}
  | Raise e =>
      {| yielded := []; raised := if is_OSError e then None else Some e |}
  end.

(** ** setup.py *)

Definition stubs : string := "indigo-stubs".

(** The expression of the [yield]:
    [".".join(os.path.relpath(root, src_path).split(os.path.sep))]. *)
Definition package_name (cwd src_path root : string) : result string :=
  match PosixPath.relpath cwd root src_path with
  | Ok rel => Ok (Str.join "." (Str.split PosixPath.sep_char rel))
  | Raise e => Raise e
  end.

(** [list_packages] over any walk primitive. *)
Definition list_packages_with (walk : string -> gen walk_item)
    (cwd src_path : string) : gen string :=
  let g := walk (PosixPath.join src_path [stubs]) in
  for_yield (yielded g) (raised g)
            (fun it => package_name cwd src_path (item_root it)).

(** [list_packages(src_path)] with [os.walk]. *)
Definition list_packages (p : process) (src_path : string) : gen string :=
  list_packages_with (os_walk p) (getcwd p) src_path.

(** The keyword arguments of the [setup] call. *)
Record distribution : Type := {
  name : string;
  version : string;
  url : string;
  author : string;
  author_email : string;
  description : string;
  install_requires : list string;
  packages : list string;
  package_data : list (string * list string)
}.

(** The script from its first line to the call: the arguments [setup]
    receives, or the exception that leaves [list(list_packages())]. *)
Definition setup_call (p : process) : result distribution :=
  match list_of (list_packages p "") with
  | Raise e => Raise e
  | Ok pkgs =>
      Ok {| name := "indigo-stubs";
            version := "3.0.0";
            url := "https://github.com/mypackage.git";
            author := "Author Name";
            author_email := "author@gmail.com";
            description := "Description of my package";
            install_requires := [];
            packages := pkgs;
            package_data := [("", ["*.pyi"])] |}
  end.

(** How setuptools reads [package_data] for a package: the patterns under
    the empty key, which stands for every package, then those under the
    package's own name. *)
Definition dict_get (d : list (string * list string)) (key : string)
  : list string :=
  match find (fun kv => String.eqb (fst kv) key) d with
  | Some kv => snd kv
  | None => []
  end.

Definition data_patterns (d : list (string * list string)) (pkg : string)
  : list string :=
  dict_get d "" ++ dict_get d pkg.

(** ** The vocabulary of the properties *)

(** A name [os.scandir] can return: not empty, without "/", and neither
    "." nor "..". *)
Definition valid_name (s : string) : bool :=
  negb (Str.is_empty s)
  && negb (Str.contains PosixPath.sep_char s)
  && negb (String.eqb s PosixPath.curdir)
  && negb (String.eqb s PosixPath.pardir).

(** [top] followed by the names of a chain of directories, joined the way
    [os.walk] joins them. *)
Definition descend (top : string) (names : list string) : string :=
  fold_left (fun t n => PosixPath.join t [n]) names top.

(** What [normpath] keeps is not empty and has no separator. *)
Definition is_comp (s : string) : Prop :=
  Str.is_empty s = false /\ Str.contains PosixPath.sep_char s = false.

(** Induction on nodes, with the hypothesis for every entry of a
    directory. *)
Section NodeInduction.

Variable P : node -> Prop.
Hypothesis P_File : P File.
Hypothesis P_Denied : P Denied.
Hypothesis P_Dir :
  forall entries, Forall (fun e => P (snd e)) entries -> P (Dir entries).

Fixpoint node_entries_ind (n : node) : P n :=
  match n with
  | File => P_File
  | Denied => P_Denied
  | Dir entries =>
      P_Dir entries
        ((fix all (es : list (string * node))
            : Forall (fun e => P (snd e)) es :=
            match es with
            | [] => Forall_nil _
            | e :: es' => Forall_cons e (node_entries_ind (snd e)) (all es')
            end) entries)
  end.

End NodeInduction.

(** The directories the walk reaches, each as the names on the way down
    from the root, in the order of the walk. *)
Fixpoint paths (n : node) : list (list string) :=
  match n with
  | Dir entries =>
      [] :: (fix below (es : list (string * node)) : list (list string) :=
               match es with
               | [] => []
               | (name, child) :: es' => map (cons name) (paths child) ++ below es'
               end) entries
  | File | Denied => []
  end.

(** Every name in the tree is one [os.scandir] can return. *)
Fixpoint wf_node (n : node) : bool :=
  match n with
  | Dir entries =>
      (fix all (es : list (string * node)) : bool :=
         match es with
         | [] => true
         | (name, child) :: es' => valid_name name && wf_node child && all es'
         end) entries
  | File | Denied => true
  end.



(** The directories of a tree, without its regular files. *)
Fixpoint dirs_only (n : node) : node :=
  match n with
  | Dir entries =>
      Dir ((fix keep (es : list (string * node)) : list (string * node) :=
              match es with
              | [] => []
              | (name, child) :: es' =>
                  if is_dir child then (name, dirs_only child) :: keep es'
                  else keep es'
              end) entries)
  | File => File
  | Denied => Denied
  end.

(** No directory of the tree has a "." in its name. *)
Fixpoint dot_free (n : node) : bool :=
  match n with
  | Dir entries =>
      (fix all (es : list (string * node)) : bool :=
         match es with
         | [] => true
         | (name, child) :: es' =>
             (if is_dir child
              then negb (Str.contains "."%char name) && dot_free child
              else true)
             && all es'
         end) entries
  | File | Denied => true
  end.

(** The dotted name of the directory reached through [names]. *)
Definition dotted (names : list string) : string :=
  Str.join "." (stubs :: names).

(** The name [list_packages] yields for a root, when [relpath] returns. *)
Definition name_of (cwd src_path root : string) : string :=
  match package_name cwd src_path root with
  | Ok s => s
  | Raise _ => ""
  end.

(** The path the walk starts from:
    [os.path.join(src_path, "indigo-stubs")]. *)
Definition top_of (src_path : string) : string :=
  PosixPath.join src_path [stubs].

(** C10 as it is stated: every name of the form [P ++ "." ++ c] in [out]
    has [P] at an earlier position. *)
Definition parent_first (out : list string) : Prop :=
  forall (i : nat) (P c : string),
    nth_error out i = Some (P ++ "." ++ c)%string ->
    exists j, j < i /\ nth_error out j = Some P.



(** [names] leads from the node down a chain of directories that can be
    listed, entry by entry. *)
Inductive reachable : node -> list string -> Prop :=
| reach_here (entries : list (string * node)) :
    reachable (Dir entries) []
| reach_below (entries : list (string * node)) (name : string) (child : node)
    (names : list string) :
    In (name, child) entries ->
    reachable child names ->
    reachable (Dir entries) (name :: names).

(** The strings of a list are pairwise different. *)
Fixpoint distinct (l : list string) : bool :=
  match l with
  | [] => true
  | x :: l' => negb (existsb (String.eqb x) l') && distinct l'
  end.

(** No directory of the tree holds two directories of the same name. *)
Fixpoint unique_names (n : node) : bool :=
  match n with
  | Dir entries =>
      distinct (dirs_of entries)
      && (fix all (es : list (string * node)) : bool :=
            match es with
            | [] => true
            | (_, child) :: es' => unique_names child && all es'
            end) entries
  | File | Denied => true
  end.

(** ** Trees and processes used in the examples *)

(** The tree of the concrete scenario: "foo" below the root, "bar" below
    "foo". *)
Definition foo_bar_tree : node :=
  Dir [("foo", Dir [("bar", Dir [])])].

(** A process whose only known path is [top]. *)
Definition process_at (cwd top : string) (n : node) : process :=
  {| getcwd := cwd;
     entry_at := fun path => if String.eqb path top then Some n else None |}.

(** A tree with the directories [a] and [a/b] below the root. *)
Definition a_b_tree : node := Dir [("a", Dir [("b", Dir [])])].

(** The root, two nested directories and three regular files. *)
Definition stub_entries : list (string * node) :=
  [("__init__.pyi", File);
   ("foo", Dir [("__init__.pyi", File);
                ("bar", Dir [("__init__.pyi", File)])])].

Definition stub_tree : node := Dir stub_entries.




(** A root with one directory, named "a.b". *)
Definition dotted_dir_tree : node := Dir [("a.b", Dir [])].

(** A walk primitive that yields two roots and returns. *)
Definition two_roots_walk (top : string) : gen walk_item :=
  {| yielded := [(top, ["foo"], []); (PosixPath.join top ["foo"], [], [])];
     raised := None |}.

(** * Properties *)

(** ** The primitives on examples *)

Example relpath_up :
  PosixPath.relpath "/home/u" "/home/v/x" "w" = Ok "../../v/x".
Proof. reflexivity. Qed.

Example normpath_dots :
  PosixPath.normpath "//a/./b/../../../c/" = "//c".
Proof. reflexivity. Qed.

Example walk_foo_bar :
  list_packages (process_at "/home/u/repo" "indigo-stubs" foo_bar_tree) ""
  = {| yielded := ["indigo-stubs"; "indigo-stubs.foo"; "indigo-stubs.foo.bar"];
       raised := None |}.
Proof. reflexivity. Qed.

Example walk_foo_bar_src :
  list_packages (process_at "/home/u" "../x//indigo-stubs" foo_bar_tree) "../x//"
  = {| yielded := ["indigo-stubs"; "indigo-stubs.foo"; "indigo-stubs.foo.bar"];
       raised := None |}.
Proof. reflexivity. Qed.

(** ** Strings *)

Section StringFacts.

Lemma append_assoc (a b c : string) : ((a ++ b) ++ c = a ++ (b ++ c))%string.
Proof. induction a as [|x a IH]; simpl; [reflexivity | now rewrite IH]. Qed.

Lemma append_empty_r (a : string) : (a ++ "")%string = a.
Proof. induction a as [|x a IH]; simpl; [reflexivity | now rewrite IH]. Qed.

Lemma is_empty_true (s : string) : Str.is_empty s = true -> s = "".
Proof. destruct s; [reflexivity | discriminate]. Qed.

Lemma is_empty_append (a b : string) :
  Str.is_empty (a ++ b) = Str.is_empty a && Str.is_empty b.
Proof. destruct a; reflexivity. Qed.

Lemma startswith_append (a b : string) (c : ascii) :
  Str.is_empty a = false ->
  Str.startswith (a ++ b) c = Str.startswith a c.
Proof. destruct a; [discriminate | reflexivity]. Qed.

Lemma endswith_append (a b : string) (c : ascii) :
  Str.is_empty b = false ->
  Str.endswith (a ++ b) c = Str.endswith b c.
Proof.
  intros Hb. induction a as [|x a IH]; [reflexivity|].
  simpl. destruct (a ++ b)%string eqn:E.
  - destruct a; [simpl in E; subst b|]; discriminate.
  - exact IH.
Qed.

(** A string that ends with [c] is some string followed by [c]. *)
Lemma endswith_inv (s : string) (c : ascii) :
  Str.endswith s c = true -> exists s', s = (s' ++ String c "")%string.
Proof.
  induction s as [|x s IH]; [discriminate|].
  simpl. destruct s as [|y s].
  - intros H. apply Ascii.eqb_eq in H. subst x. now exists "".
  - intros H. destruct (IH H) as [s' Hs']. exists (String x s').
    simpl. now rewrite Hs'.
Qed.

Lemma contains_append (c : ascii) (a b : string) :
  Str.contains c (a ++ b) = Str.contains c a || Str.contains c b.
Proof.
  induction a as [|x a IH]; [reflexivity|].
  simpl. rewrite IH. now rewrite orb_assoc.
Qed.

Lemma endswith_contains (s : string) (c : ascii) :
  Str.contains c s = false -> Str.endswith s c = false.
Proof.
  induction s as [|x s IH]; [reflexivity|].
  simpl. intros H. apply orb_false_elim in H. destruct H as [Hx Hs].
  destruct s; [exact Hx | now apply IH].
Qed.

Lemma startswith_contains (s : string) (c : ascii) :
  Str.contains c s = false -> Str.startswith s c = false.
Proof.
  destruct s as [|x s]; [reflexivity|].
  simpl. intros H. now apply orb_false_elim in H.
Qed.

(** [split]: never the empty list; every piece is free of the separator;
    a string without separator is its own only piece. *)
Lemma split_not_nil (c : ascii) (s : string) : Str.split c s <> [].
Proof.
  destruct s as [|x s]; simpl; [discriminate|].
  destruct (Ascii.eqb x c); [discriminate|].
  destruct (Str.split c s); discriminate.
Qed.

Lemma split_pieces (c : ascii) (s : string) :
  Forall (fun piece => Str.contains c piece = false) (Str.split c s).
Proof.
  induction s as [|x s IH]; simpl.
  - now constructor.
  - destruct (Ascii.eqb x c) eqn:E.
    + now constructor.
    + destruct (Str.split c s) as [|piece pieces].
      * constructor; [simpl; now rewrite E | constructor].
      * inversion IH; subst. constructor; [simpl; now rewrite E | assumption].
Qed.

Lemma split_free (c : ascii) (s : string) :
  Str.contains c s = false -> Str.split c s = [s].
Proof.
  induction s as [|x s IH]; [reflexivity|].
  simpl. intros H. apply orb_false_elim in H. destruct H as [Hx Hs].
  rewrite Hx, (IH Hs). reflexivity.
Qed.

(** Splitting distributes over a separator in the middle. *)
Lemma split_append_sep (c : ascii) (a b : string) :
  Str.split c (a ++ String c b) = Str.split c a ++ Str.split c b.
Proof.
  induction a as [|x a IH]; simpl.
  - now rewrite Ascii.eqb_refl.
  - rewrite IH. destruct (Ascii.eqb x c); [reflexivity|].
    destruct (Str.split c a) eqn:E; [now apply split_not_nil in E|].
    reflexivity.
Qed.

(** [split] undoes [join] on pieces free of the separator. *)
Lemma split_join (c : ascii) (pieces : list string) :
  pieces <> [] ->
  Forall (fun piece => Str.contains c piece = false) pieces ->
  Str.split c (Str.join (String c "") pieces) = pieces.
Proof.
  intros Hne Hall. induction Hall as [|piece rest Hp Hrest IH]; [contradiction|].
  destruct rest as [|piece' rest'].
  - simpl. now apply split_free.
  - change (Str.join (String c "") (piece :: piece' :: rest'))
      with (piece ++ String c (Str.join (String c "") (piece' :: rest')))%string.
    rewrite split_append_sep, (split_free _ _ Hp), IH by discriminate.
    reflexivity.
Qed.

(** [join] undoes [split]. *)
Lemma join_split (c : ascii) (s : string) :
  Str.join (String c "") (Str.split c s) = s.
Proof.
  induction s as [|x s IH]; [reflexivity|].
  simpl. destruct (Ascii.eqb x c) eqn:E.
  - apply Ascii.eqb_eq in E. subst x.
    destruct (Str.split c s) eqn:Es; [now apply split_not_nil in Es|].
    unfold Str.join in *. simpl in *. now rewrite IH.
  - destruct (Str.split c s) as [|piece pieces] eqn:Es;
      [now apply split_not_nil in Es|].
    unfold Str.join in *. simpl in *.
    destruct pieces; simpl in *; now rewrite <- IH.
Qed.

End StringFacts.

(** ** Paths *)

Section PathFacts.

Import PosixPath.

Lemma valid_name_inv (s : string) :
  valid_name s = true ->
  Str.is_empty s = false /\ Str.contains sep_char s = false
  /\ String.eqb s curdir = false /\ String.eqb s pardir = false.
Proof.
  unfold valid_name. intros H.
  repeat (apply andb_prop in H; destruct H as [H ?]).
  repeat split; now apply negb_true_iff.
Qed.

Lemma descend_join (top : string) (names : list string) :
  descend top names = join top names.
Proof. reflexivity. Qed.

Lemma descend_snoc (top : string) (names : list string) (n : string) :
  descend top (names ++ [n]) = join (descend top names) [n].
Proof. unfold descend. now rewrite fold_left_app. Qed.

Lemma descend_cons (top : string) (n : string) (names : list string) :
  descend top (n :: names) = descend (join top [n]) names.
Proof. reflexivity. Qed.

Lemma join_one (a b : string) : join a [b] = join2 a b.
Proof. reflexivity. Qed.

Lemma is_empty_join2 (a b : string) :
  Str.is_empty (join2 a b) = Str.is_empty a && Str.is_empty b.
Proof.
  unfold join2. destruct (Str.startswith b sep_char) eqn:Hb.
  - destruct b; [discriminate|]. simpl. now rewrite andb_false_r.
  - destruct a as [|x a]; [reflexivity|].
    now destruct (Str.endswith (String x a) sep_char).
Qed.

Lemma isabs_join2 (a b : string) :
  isabs b = false -> isabs (join2 a b) = isabs a.
Proof.
  unfold isabs, join2. intros Hb. rewrite Hb.
  destruct a as [|x a]; [exact Hb|].
  destruct (Str.endswith (String x a) sep_char); reflexivity.
Qed.

(** *** [normpath] *)

Lemma norm_step_empty (k : nat) (acc : list string) :
  norm_step k acc "" = acc.
Proof. reflexivity. Qed.

Lemma norm_step_valid (k : nat) (acc : list string) (n : string) :
  valid_name n = true -> norm_step k acc n = n :: acc.
Proof.
  intros H. apply valid_name_inv in H. destruct H as (He & _ & Hc & Hp).
  unfold norm_step. rewrite Hc, Hp.
  destruct n; [discriminate | reflexivity].
Qed.

Lemma norm_step_slashes (k : nat) (acc : list string) (comp : string) :
  k <> 0 -> norm_step k acc comp = norm_step 1 acc comp.
Proof.
  intros Hk. unfold norm_step.
  destruct k; [contradiction | reflexivity].
Qed.

Lemma norm_fold_slashes (k : nat) (comps acc : list string) :
  k <> 0 ->
  fold_left (norm_step k) comps acc = fold_left (norm_step 1) comps acc.
Proof.
  intros Hk. revert acc. induction comps as [|c comps IH]; intros acc.
  - reflexivity.
  - simpl. now rewrite IH, norm_step_slashes.
Qed.

Lemma initial_slashes_isabs (s : string) :
  isabs s = true -> initial_slashes s <> 0.
Proof.
  unfold isabs. destruct s as [|a [|b [|c s]]]; simpl; try discriminate;
    intros ->; repeat match goal with |- context [Ascii.eqb ?x ?y] =>
                                        destruct (Ascii.eqb x y) end;
    discriminate.
Qed.

(** The components of a joined path are those of its two parts, up to the
    empty components that [normpath] skips. *)
Lemma norm_fold_join2 (k : nat) (a b : string) (acc : list string) :
  isabs b = false ->
  fold_left (norm_step k) (Str.split sep_char (join2 a b)) acc
  = fold_left (norm_step k) (Str.split sep_char b)
      (fold_left (norm_step k) (Str.split sep_char a) acc).
Proof.
  unfold isabs, join2. intros Hb. rewrite Hb.
  destruct (Str.is_empty a) eqn:Ha.
  - apply is_empty_true in Ha. subst a. reflexivity.
  - simpl. destruct (Str.endswith a sep_char) eqn:He.
    + destruct (endswith_inv _ _ He) as [a' ->].
      rewrite append_assoc. simpl.
      rewrite !split_append_sep, !fold_left_app. reflexivity.
    + unfold sep. simpl. rewrite split_append_sep, fold_left_app. reflexivity.
Qed.

Lemma norm_fold_descend (k : nat) (top : string) (names acc : list string) :
  Forall (fun n => valid_name n = true) names ->
  fold_left (norm_step k) (Str.split sep_char (descend top names)) acc
  = rev names ++ fold_left (norm_step k) (Str.split sep_char top) acc.
Proof.
  intros Hv. revert top. induction Hv as [|n names Hn Hv IH]; intros top.
  - reflexivity.
  - rewrite descend_cons, IH. simpl join.
    pose proof (valid_name_inv _ Hn) as (_ & Hs & _ & _).
    rewrite norm_fold_join2 by (now apply startswith_contains).
    rewrite (split_free _ _ Hs). simpl.
    rewrite norm_step_valid by assumption.
    now rewrite <- app_assoc.
Qed.

Lemma norm_step_comps (k : nat) (acc : list string) (comp : string) :
  Str.contains sep_char comp = false ->
  Forall is_comp acc -> Forall is_comp (norm_step k acc comp).
Proof.
  intros Hc Hacc. unfold norm_step.
  destruct (String.eqb comp "") eqn:E; [assumption|].
  destruct (String.eqb comp curdir); simpl; [assumption|].
  assert (Hcomp : is_comp comp).
  { split; [|assumption]. destruct comp; [discriminate | reflexivity]. }
  match goal with |- Forall _ (if ?c then _ else _) => destruct c end.
  - now constructor.
  - destruct acc; [constructor | now inversion Hacc].
Qed.

Lemma norm_fold_comps (k : nat) (comps acc : list string) :
  Forall (fun c => Str.contains sep_char c = false) comps ->
  Forall is_comp acc -> Forall is_comp (fold_left (norm_step k) comps acc).
Proof.
  intros Hc. revert acc. induction Hc as [|c comps Hc Hcs IH]; intros acc Hacc.
  - assumption.
  - simpl. apply IH. now apply norm_step_comps.
Qed.

Lemma norm_comps_comps (k : nat) (s : string) :
  Forall is_comp (norm_comps k (Str.split sep_char s)).
Proof.
  unfold norm_comps. apply Forall_rev.
  apply norm_fold_comps; [apply split_pieces | constructor].
Qed.

Lemma nonempty_comps_sep (s : string) :
  nonempty_comps (String sep_char s) = nonempty_comps s.
Proof. unfold nonempty_comps. simpl. reflexivity. Qed.

Lemma nonempty_comps_slashes (k : nat) (s : string) :
  nonempty_comps (Str.repeat sep_char k ++ s) = nonempty_comps s.
Proof.
  induction k as [|k IH]; [reflexivity|].
  simpl Str.repeat. simpl String.append. now rewrite nonempty_comps_sep.
Qed.

Lemma nonempty_comps_join (comps : list string) :
  Forall is_comp comps -> nonempty_comps (Str.join sep comps) = comps.
Proof.
  intros H. destruct comps as [|c comps]; [reflexivity|].
  assert (Hfree : Forall (fun p => Str.contains sep_char p = false) (c :: comps)).
  { eapply Forall_impl; [|exact H]. now intros ? [_ ?]. }
  unfold nonempty_comps, sep.
  rewrite (split_join sep_char) by (discriminate || exact Hfree).
  apply forallb_filter_id. apply forallb_forall. intros x Hx.
  rewrite Forall_forall in H. destruct (H x Hx) as [-> _]. reflexivity.
Qed.

(** The components of a normalised absolute path. *)
Lemma nonempty_comps_normpath (q : string) :
  isabs q = true ->
  nonempty_comps (normpath q) = norm_comps 1 (Str.split sep_char q).
Proof.
  intros Hq. pose proof (initial_slashes_isabs _ Hq) as Hk.
  unfold normpath. destruct q as [|x q]; [discriminate|].
  cbv beta iota zeta delta [Str.is_empty].
  destruct (initial_slashes (String x q)) as [|k] eqn:Ek; [contradiction|].
  simpl Str.repeat.
  cbv beta iota zeta delta [String.append].
  fold String.append.
  rewrite nonempty_comps_sep, nonempty_comps_slashes.
  unfold norm_comps at 1. rewrite norm_fold_slashes by discriminate.
  fold (norm_comps 1 (Str.split sep_char (String x q))).
  apply nonempty_comps_join, norm_comps_comps.
Qed.

End PathFacts.

(** *** [relpath] *)

Section RelpathFacts.

Import PosixPath.

Lemma list_lt_app_l (l m : list string) : list_lt (l ++ m) l = false.
Proof.
  induction l as [|x l IH]; simpl.
  - now destruct m.
  - now rewrite String.eqb_refl.
Qed.

Lemma common_run_refl (l : list string) : common_run l l = l.
Proof.
  induction l as [|x l IH]; simpl; [reflexivity|].
  now rewrite String.eqb_refl, IH.
Qed.

Lemma common_run_app (l m : list string) : common_run l (l ++ m) = l.
Proof.
  induction l as [|x l IH]; simpl; [reflexivity|].
  now rewrite String.eqb_refl, IH.
Qed.

(** The common prefix of a list and one of its extensions is the list. *)
Lemma commonprefix_app (l m : list string) : commonprefix l (l ++ m) = l.
Proof.
  unfold commonprefix. rewrite list_lt_app_l.
  destruct (list_lt l (l ++ m)); [apply common_run_app | apply common_run_refl].
Qed.

(** Joining valid names on a path that does not end in a slash puts one
    slash before each. *)
Lemma join_valid (a : string) (names : list string) :
  Str.is_empty a = false -> Str.endswith a sep_char = false ->
  Forall (fun n => valid_name n = true) names ->
  join a names = Str.join sep (a :: names).
Proof.
  intros Ha He Hv. revert a Ha He.
  induction Hv as [|n names Hn Hv IH]; intros a Ha He; [reflexivity|].
  pose proof (valid_name_inv _ Hn) as (Hne & Hs & _ & _).
  unfold join in *. simpl fold_left. unfold join2 at 2.
  rewrite (startswith_contains _ _ Hs), Ha, He. simpl orb. cbv iota.
  rewrite IH.
  - unfold Str.join. simpl String.concat.
    destruct names; [reflexivity|]. now rewrite !append_assoc.
  - rewrite is_empty_append, Ha. reflexivity.
  - rewrite endswith_append, endswith_append by
      (try assumption; now rewrite is_empty_append).
    now apply endswith_contains.
Qed.

Lemma isabs_stubs_top (src_path : string) :
  isabs (join src_path [stubs]) = isabs src_path.
Proof. now apply isabs_join2. Qed.

Lemma isabs_descend (top : string) (names : list string) :
  Forall (fun n => valid_name n = true) names ->
  isabs (descend top names) = isabs top.
Proof.
  intros Hv. revert top. induction Hv as [|n names Hn Hv IH]; intros top.
  - reflexivity.
  - rewrite descend_cons, IH. apply isabs_join2.
    apply startswith_contains. now apply valid_name_inv in Hn.
Qed.

Lemma is_empty_stubs_top (src_path : string) :
  Str.is_empty (join src_path [stubs]) = false.
Proof. rewrite join_one, is_empty_join2. apply andb_false_r. Qed.

Lemma is_empty_descend (top : string) (names : list string) :
  Str.is_empty top = false -> Str.is_empty (descend top names) = false.
Proof.
  revert top. induction names as [|n names IH]; intros top Htop.
  - exact Htop.
  - rewrite descend_cons. apply IH.
    now rewrite join_one, is_empty_join2, Htop.
Qed.

Lemma valid_stubs : valid_name stubs = true.
Proof. reflexivity. Qed.

(** The normalised components of the path of a directory below
    [indigo-stubs] are those of [src_path], then "indigo-stubs", then the
    names on the way down. *)
Lemma abspath_comps_descend (cwd src_path : string) (names : list string) :
  isabs cwd = true ->
  Forall (fun n => valid_name n = true) names ->
  nonempty_comps (abspath cwd (descend (join src_path [stubs]) names))
  = nonempty_comps (abspath cwd src_path) ++ stubs :: names.
Proof.
  intros Hcwd Hv.
  assert (Hv' : Forall (fun n => valid_name n = true) (stubs :: names))
    by (constructor; [apply valid_stubs | assumption]).
  change (descend (join src_path [stubs]) names)
    with (descend src_path (stubs :: names)).
  unfold abspath.
  rewrite (isabs_descend _ _ Hv').
  destruct (isabs src_path) eqn:Hsrc.
  - rewrite !nonempty_comps_normpath
      by (try assumption; now rewrite (isabs_descend _ _ Hv')).
    unfold norm_comps. rewrite (norm_fold_descend _ _ _ _ Hv').
    now rewrite rev_app_distr, rev_involutive.
  - assert (Hd : isabs (descend src_path (stubs :: names)) = false)
      by now rewrite (isabs_descend _ _ Hv').
    rewrite !join_one. rewrite !nonempty_comps_normpath
      by (rewrite isabs_join2; assumption).
    unfold norm_comps. rewrite !norm_fold_join2 by assumption.
    rewrite (norm_fold_descend _ _ _ _ Hv').
    now rewrite rev_app_distr, rev_involutive.
Qed.

(** [relpath] of a directory below [indigo-stubs], from [src_path]. *)
Lemma relpath_descend (cwd src_path : string) (names : list string) :
  isabs cwd = true ->
  Forall (fun n => valid_name n = true) names ->
  relpath cwd (descend (join src_path [stubs]) names) src_path
  = Ok (Str.join sep (stubs :: names)).
Proof.
  intros Hcwd Hv. unfold relpath.
  rewrite (is_empty_descend _ _ (is_empty_stubs_top src_path)), (abspath_comps_descend _ _ _ Hcwd Hv).
  rewrite commonprefix_app, Nat.sub_diag, skipn_app, Nat.sub_diag.
  rewrite skipn_all. cbn [List.repeat app skipn].
  f_equal. apply join_valid; [reflexivity | reflexivity | assumption].
Qed.

End RelpathFacts.

(** ** The walk *)

Section WalkFacts.

Lemma walk_node_Dir (top : string) (entries : list (string * node)) :
  walk_node top (Dir entries)
  = (top, dirs_of entries, nondirs_of entries) :: walk_entries top entries.
Proof.
  simpl. f_equal. unfold walk_entries.
  induction entries as [|[name child] es IH]; [reflexivity|].
  simpl. now rewrite IH.
Qed.

Lemma paths_Dir (entries : list (string * node)) :
  paths (Dir entries)
  = [] :: flat_map (fun e => map (cons (fst e)) (paths (snd e))) entries.
Proof.
  simpl. f_equal.
  induction entries as [|[name child] es IH]; [reflexivity|].
  simpl. now rewrite IH.
Qed.

Lemma wf_node_Dir (entries : list (string * node)) :
  wf_node (Dir entries)
  = forallb (fun e => valid_name (fst e) && wf_node (snd e)) entries.
Proof.
  simpl. induction entries as [|[name child] es IH]; [reflexivity|].
  simpl. now rewrite IH.
Qed.



(** The roots of the walk are the paths of the directories it reaches. *)
Lemma walk_roots (n : node) : forall top,
  map item_root (walk_node top n) = map (descend top) (paths n).
Proof.
  induction n as [| |entries IH] using node_entries_ind; intros top;
    [reflexivity | reflexivity |].
  rewrite walk_node_Dir, paths_Dir. cbn [map item_root fst]. f_equal.
  unfold walk_entries.
  induction IH as [|[name child] es Hchild _ IHes]; [reflexivity|].
  cbn [flat_map fst snd]. rewrite !map_app, IHes. f_equal.
  rewrite map_map. cbn [snd] in Hchild.
  destruct (is_dir child) eqn:Hd.
  - rewrite Hchild. apply map_ext. intros names. reflexivity.
  - destruct child; [reflexivity | discriminate | discriminate].
Qed.

(** The names on the way down are valid in a well-formed tree. *)
Lemma paths_valid (n : node) :
  wf_node n = true ->
  Forall (fun names => Forall (fun x => valid_name x = true) names) (paths n).
Proof.
  induction n as [| |entries IH] using node_entries_ind;
    [constructor | constructor |].
  rewrite wf_node_Dir, paths_Dir. intros Hwf.
  constructor; [constructor|].
  induction IH as [|[name child] es Hchild _ IHes]; [constructor|].
  cbn [forallb fst snd] in Hwf.
  apply andb_prop in Hwf. destruct Hwf as [Hhd Hes].
  apply andb_prop in Hhd. destruct Hhd as [Hname Hwfc].
  cbn [flat_map fst snd]. apply Forall_app. split; [|now apply IHes].
  apply Forall_map. eapply Forall_impl; [|exact (Hchild Hwfc)].
  intros names Hnames. now constructor.
Qed.


Lemma walk_roots_nonempty (n : node) (top : string) :
  Str.is_empty top = false ->
  Forall (fun it => Str.is_empty (item_root it) = false) (walk_node top n).
Proof.
  intros Htop.
  assert (H : Forall (fun r => Str.is_empty r = false)
                     (map item_root (walk_node top n))).
  { rewrite walk_roots. apply Forall_map, Forall_forall. intros names _.
    now apply is_empty_descend. }
  rewrite Forall_map in H. exact H.
Qed.

End WalkFacts.

(** ** [list_packages] *)

Section ListPackagesFacts.

Lemma for_yield_ok {A B : Type} (f : A -> B) (body : A -> result B)
    (items : list A) (stop : option exn) :
  Forall (fun x => body x = Ok (f x)) items ->
  for_yield items stop body = {| yielded := map f items; raised := stop |}.
Proof.
  induction 1 as [|x items Hx _ IH]; [reflexivity|].
  simpl. now rewrite Hx, IH.
Qed.

(** [relpath] raises on the empty path only. *)
Lemma package_name_nonempty (cwd src_path root : string) :
  Str.is_empty root = false ->
  package_name cwd src_path root = Ok (name_of cwd src_path root).
Proof.
  intros Hne. unfold name_of, package_name, PosixPath.relpath. rewrite Hne.
  cbv zeta.
  match goal with |- context [match ?l with [] => _ | _ :: _ => _ end] =>
    destruct l end; reflexivity.
Qed.

(** Over a walk whose roots are not empty, [list_packages] yields one name
    per element of the walk and stops the way the walk stops. *)
Lemma list_packages_with_trace (walk : string -> gen walk_item)
    (cwd src_path : string) :
  Forall (fun it => Str.is_empty (item_root it) = false)
         (yielded (walk (top_of src_path))) ->
  list_packages_with walk cwd src_path
  = {| yielded := map (fun it => name_of cwd src_path (item_root it))
                      (yielded (walk (top_of src_path)));
       raised := raised (walk (top_of src_path)) |}.
Proof.
  intros Hroots. unfold list_packages_with. apply for_yield_ok.
  eapply Forall_impl; [|exact Hroots].
  intros it Hit. now apply package_name_nonempty.
Qed.

(** What is found at a path lies at a path without NUL. *)
Lemma lookup_no_nul (p : process) (path : string) (n : node) :
  lookup p path = Some n -> Str.contains nul path = false.
Proof.
  unfold lookup. now destruct (Str.contains nul path).
Qed.

(** [os.walk] yields the walk of what is found at [top], if anything. *)
Lemma os_walk_yielded (p : process) (top : string) :
  yielded (os_walk p top)
  = match lookup p top with
    | Some n => walk_node top n
    | None => []
    end.
Proof.
  unfold os_walk, os_scandir, lookup.
  destruct (Str.contains nul top); [reflexivity|].
  now destruct (entry_at p top) as [[| |]|].
Qed.

(** It raises for a path with NUL, and for no other. *)
Lemma os_walk_raised (p : process) (top : string) :
  raised (os_walk p top)
  = if Str.contains nul top then Some (ValueError "embedded null byte")
    else None.
Proof.
  unfold os_walk, os_scandir, lookup.
  destruct (Str.contains nul top); [reflexivity|].
  now destruct (entry_at p top) as [[| |]|].
Qed.

Lemma os_walk_found (p : process) (top : string) (n : node) :
  lookup p top = Some n ->
  os_walk p top = {| yielded := walk_node top n; raised := None |}.
Proof.
  intros H. pose proof (os_walk_yielded p top) as Hy.
  pose proof (os_walk_raised p top) as Hr.
  rewrite H in Hy. rewrite (lookup_no_nul _ _ _ H) in Hr.
  destruct (os_walk p top). cbn in Hy, Hr. now subst.
Qed.


Lemma os_walk_roots_nonempty (p : process) (src_path : string) :
  Forall (fun it => Str.is_empty (item_root it) = false)
         (yielded (os_walk p (top_of src_path))).
Proof.
  rewrite os_walk_yielded.
  destruct (lookup p (top_of src_path)); [|constructor].
  apply walk_roots_nonempty, is_empty_stubs_top.
Qed.

Lemma list_packages_trace (p : process) (src_path : string) :
  list_packages p src_path
  = {| yielded := map (fun it => name_of (getcwd p) src_path (item_root it))
                      (yielded (os_walk p (top_of src_path)));
       raised := raised (os_walk p (top_of src_path)) |}.
Proof.
  unfold list_packages.
  now rewrite list_packages_with_trace by apply os_walk_roots_nonempty.
Qed.

(** When something is found at the top path, [list_packages] returns. *)
Lemma list_packages_found (p : process) (src_path : string) (t : node) :
  lookup p (top_of src_path) = Some t ->
  list_packages p src_path
  = {| yielded := map (fun it => name_of (getcwd p) src_path (item_root it))
                      (walk_node (top_of src_path) t);
       raised := None |}.
Proof.
  intros Ht. now rewrite list_packages_trace, (os_walk_found _ _ _ Ht).
Qed.

(** The name of the directory reached through valid [names]. *)
Lemma name_of_descend (cwd src_path : string) (names : list string) :
  PosixPath.isabs cwd = true ->
  Forall (fun n => valid_name n = true) names ->
  name_of cwd src_path (descend (top_of src_path) names) = dotted names.
Proof.
  intros Hcwd Hv. unfold name_of, package_name, top_of.
  rewrite (relpath_descend _ _ _ Hcwd Hv).
  unfold dotted. f_equal. unfold PosixPath.sep.
  apply split_join; [discriminate|].
  constructor; [reflexivity|].
  eapply Forall_impl; [|exact Hv].
  intros n Hn. now apply valid_name_inv in Hn.
Qed.

(** In a well-formed tree, [list_packages] yields the dotted names of the
    directories the walk reaches, in the order of the walk. *)
Lemma list_packages_names (p : process) (src_path : string) (t : node) :
  PosixPath.isabs (getcwd p) = true ->
  lookup p (top_of src_path) = Some t ->
  wf_node t = true ->
  list_packages p src_path
  = {| yielded := map dotted (paths t); raised := None |}.
Proof.
  intros Hcwd Ht Hwf. rewrite (list_packages_found _ _ _ Ht). f_equal.
  rewrite <- (map_map item_root (name_of (getcwd p) src_path)).
  rewrite walk_roots, map_map.
  apply map_ext_in. intros names Hin.
  apply name_of_descend; [assumption|].
  pose proof (paths_valid t Hwf) as Hall.
  rewrite Forall_forall in Hall. now apply Hall.
Qed.

(** The directory reached through [names] is visited at the position of
    [names] in [paths], and its path relative to [src_path] is
    "indigo-stubs" and the names, joined by "/". *)
Lemma visited_relpath (p : process) (src_path : string) (t : node)
    (i : nat) (names : list string) :
  PosixPath.isabs (getcwd p) = true ->
  lookup p (top_of src_path) = Some t ->
  wf_node t = true ->
  nth_error (paths t) i = Some names ->
  exists it,
    nth_error (yielded (os_walk p (top_of src_path))) i = Some it
    /\ item_root it = descend (top_of src_path) names
    /\ PosixPath.relpath (getcwd p) (item_root it) src_path
       = Ok (Str.join PosixPath.sep (stubs :: names)).
Proof.
  intros Hcwd Ht Hwf Hi.
  pose proof (walk_roots t (top_of src_path)) as Hroots.
  apply (f_equal (fun l => nth_error l i)) in Hroots.
  rewrite !nth_error_map, Hi in Hroots. cbn [option_map] in Hroots.
  rewrite os_walk_yielded, Ht.
  destruct (nth_error (walk_node (top_of src_path) t) i) as [it|];
    [|discriminate].
  cbn [option_map] in Hroots. inversion Hroots as [Hroot].
  exists it. repeat split. rewrite Hroot.
  apply relpath_descend; [assumption|].
  pose proof (paths_valid t Hwf) as Hall. rewrite Forall_forall in Hall.
  exact (Hall names (nth_error_In _ _ Hi)).
Qed.

(** The first element of the walk of a directory is the directory. *)
Lemma os_walk_head (p : process) (top : string)
    (entries : list (string * node)) :
  lookup p top = Some (Dir entries) ->
  yielded (os_walk p top)
  = (top, dirs_of entries, nondirs_of entries) :: walk_entries top entries.
Proof. intros H. now rewrite os_walk_yielded, H, walk_node_Dir. Qed.

Lemma name_of_top (cwd src_path : string) :
  PosixPath.isabs cwd = true ->
  name_of cwd src_path (top_of src_path) = stubs.
Proof.
  intros Hcwd. exact (name_of_descend cwd src_path [] Hcwd (Forall_nil _)).
Qed.


(** The names are computed from the roots of the walk alone. *)
Lemma list_packages_roots (p : process) (src_path : string) (t : node) :
  lookup p (top_of src_path) = Some t ->
  yielded (list_packages p src_path)
  = map (fun names => name_of (getcwd p) src_path
                              (descend (top_of src_path) names))
        (paths t).
Proof.
  intros Ht. rewrite (list_packages_found _ _ _ Ht). cbn [yielded].
  rewrite <- (map_map item_root (name_of (getcwd p) src_path)).
  now rewrite walk_roots, map_map.
Qed.

Lemma list_packages_returns (p : process) (src_path : string) (t : node) :
  lookup p (top_of src_path) = Some t ->
  raised (list_packages p src_path) = None.
Proof. intros Ht. now rewrite (list_packages_found _ _ _ Ht). Qed.

Lemma gen_eq {A : Type} (g h : gen A) :
  yielded g = yielded h -> raised g = raised h -> g = h.
Proof. destruct g, h. cbn. now intros -> ->. Qed.



End ListPackagesFacts.

(** * The properties of the specification *)

(** C1 (naming property). In a well-formed tree, every directory that lies
    at "indigo-stubs/a/b" below [src_path], reached from the root through
    [a] and then [b], is visited by the walk at its position; its path
    relative to [src_path] is "indigo-stubs/a/b", whatever [src_path] and
    the working directory are, and the name emitted at that position is
    exactly "indigo-stubs.a.b", the relative path split on the separator
    and rejoined with ".". *)
Theorem naming_property (p : process) (src_path : string) (t : node)
    (i : nat) (a b : string) :
  PosixPath.isabs (getcwd p) = true ->
  lookup p (top_of src_path) = Some t ->
  wf_node t = true ->
  nth_error (paths t) i = Some [a; b] ->
  exists it : walk_item,
    nth_error (yielded (os_walk p (top_of src_path))) i = Some it
    /\ item_root it = PosixPath.join (top_of src_path) [a; b]
    /\ PosixPath.relpath (getcwd p) (item_root it) src_path
       = Ok ("indigo-stubs" ++ "/" ++ a ++ "/" ++ b)%string
    /\ nth_error (yielded (list_packages p src_path)) i
       = Some ("indigo-stubs" ++ "." ++ a ++ "." ++ b)%string
    /\ ("indigo-stubs" ++ "." ++ a ++ "." ++ b)%string
       = Str.join "." (Str.split PosixPath.sep_char
                         ("indigo-stubs" ++ "/" ++ a ++ "/" ++ b)).
Proof.
  intros Hcwd Ht Hwf Hi.
  destruct (visited_relpath _ _ _ _ _ Hcwd Ht Hwf Hi) as (it & Hit & Hroot & Hrel).
  exists it. split; [exact Hit|]. split; [exact Hroot|]. split; [exact Hrel|].
  split.
  - rewrite (list_packages_names _ _ _ Hcwd Ht Hwf). cbn [yielded].
    now rewrite nth_error_map, Hi.
  - pose proof (paths_valid t Hwf) as Hall. rewrite Forall_forall in Hall.
    pose proof (Hall _ (nth_error_In _ _ Hi)) as Hab.
    inversion Hab as [|? ? Ha Hb']; subst. inversion Hb' as [|? ? Hb _]; subst.
    apply valid_name_inv in Ha, Hb.
    change ("indigo-stubs" ++ "/" ++ a ++ "/" ++ b)%string
      with (Str.join (String PosixPath.sep_char "") ["indigo-stubs"; a; b]).
    rewrite split_join; [reflexivity | discriminate |].
    repeat constructor; tauto.
Qed.

Lemma naming_property_witness :
  exists it : walk_item,
    nth_error
      (yielded (os_walk (process_at "/home/u" "/opt/src/indigo-stubs" a_b_tree)
                        "/opt/src/indigo-stubs")) 2 = Some it
    /\ item_root it = "/opt/src/indigo-stubs/a/b"
    /\ PosixPath.relpath "/home/u" (item_root it) "/opt/src"
       = Ok "indigo-stubs/a/b"
    /\ nth_error
         (yielded (list_packages
                     (process_at "/home/u" "/opt/src/indigo-stubs" a_b_tree)
                     "/opt/src")) 2
       = Some "indigo-stubs.a.b"
    /\ "indigo-stubs.a.b"
       = Str.join "." (Str.split PosixPath.sep_char "indigo-stubs/a/b").
Proof.
  apply (naming_property
           (process_at "/home/u" "/opt/src/indigo-stubs" a_b_tree) "/opt/src"
           a_b_tree 2 "a" "b"); reflexivity.
Defined.







(** C4, as stated, fails: a directory "indigo-stubs" that exists and
    cannot be listed yields no string at all. *)
Lemma unlistable_root_yields_no_name :
  let p := process_at "/home/u" "indigo-stubs" Denied in
  lookup p (top_of "") = Some Denied
  /\ is_dir Denied = true
  /\ ~ In "indigo-stubs" (yielded (list_packages p "")).
Proof. repeat split. intros []. Qed.

(** C4 (root-name property), amended. When "indigo-stubs" is a directory
    that can be listed, the walk
    starts at the root, and the name emitted for it is exactly
    "indigo-stubs", for every [src_path] and for the empty default in
    particular: nothing of [src_path] and no separator is left in it. *)
Theorem root_name_property (p : process) (src_path : string)
    (entries : list (string * node)) :
  PosixPath.isabs (getcwd p) = true ->
  lookup p (top_of src_path) = Some (Dir entries) ->
  (exists dirs nondirs,
     nth_error (yielded (os_walk p (top_of src_path))) 0
     = Some (top_of src_path, dirs, nondirs))
  /\ package_name (getcwd p) src_path (top_of src_path) = Ok "indigo-stubs"
  /\ nth_error (yielded (list_packages p src_path)) 0 = Some "indigo-stubs".
Proof.
  intros Hcwd Ht. pose proof (name_of_top _ src_path Hcwd) as Hname.
  split; [|split].
  - rewrite (os_walk_head _ _ _ Ht). now eexists; eexists.
  - rewrite package_name_nonempty by apply is_empty_stubs_top.
    now rewrite Hname.
  - rewrite list_packages_trace. cbn [yielded].
    rewrite (os_walk_head _ _ _ Ht). cbn [map nth_error item_root fst].
    now rewrite Hname.
Qed.

Lemma root_name_property_witness :
  nth_error
    (yielded (list_packages (process_at "/home/u" "indigo-stubs" stub_tree) ""))
    0
  = Some "indigo-stubs".
Proof.
  apply (root_name_property
           (process_at "/home/u" "indigo-stubs" stub_tree) "" stub_entries);
    reflexivity.
Defined.

(** C9, as stated, fails: for a directory "indigo-stubs" that exists and
    cannot be listed, the sequence is empty. *)
Lemma unlistable_root_yields_nothing :
  let p := process_at "/srv" "/opt/src/indigo-stubs" Denied in
  lookup p (top_of "/opt/src") = Some Denied
  /\ is_dir Denied = true
  /\ list_packages p "/opt/src" = {| yielded := []; raised := None |}.
Proof. repeat split. Qed.

(** C9, amended. When "indigo-stubs" is a directory that can be listed,
    what [list_packages] yields is
    not empty and starts with the name of the root, "indigo-stubs": the
    top-down walk yields the root before anything below it. *)
Theorem root_name_first (p : process) (src_path : string)
    (entries : list (string * node)) :
  PosixPath.isabs (getcwd p) = true ->
  lookup p (top_of src_path) = Some (Dir entries) ->
  yielded (list_packages p src_path) <> []
  /\ exists rest,
       yielded (list_packages p src_path) = "indigo-stubs" :: rest
       /\ rest = map (fun it => name_of (getcwd p) src_path (item_root it))
                     (walk_entries (top_of src_path) entries).
Proof.
  intros Hcwd Ht. rewrite list_packages_trace. cbn [yielded].
  rewrite (os_walk_head _ _ _ Ht). cbn [map item_root fst].
  rewrite (name_of_top _ src_path Hcwd).
  split; [discriminate|]. eexists. split; reflexivity.
Qed.

Lemma root_name_first_witness :
  yielded (list_packages (process_at "/srv" "/opt/src/indigo-stubs" stub_tree)
                         "/opt/src")
  <> [].
Proof.
  apply (root_name_first
           (process_at "/srv" "/opt/src/indigo-stubs" stub_tree) "/opt/src"
           stub_entries); reflexivity.
Defined.

Lemma dirs_only_Dir (entries : list (string * node)) :
  dirs_only (Dir entries)
  = Dir (map (fun e => (fst e, dirs_only (snd e)))
             (filter (fun e => is_dir (snd e)) entries)).
Proof.
  simpl. f_equal. induction entries as [|[name child] es IH]; [reflexivity|].
  simpl. rewrite IH. now destruct (is_dir child).
Qed.

(** The regular files of a tree do not show in its walk. *)
Lemma paths_dirs_only (n : node) : paths (dirs_only n) = paths n.
Proof.
  induction n as [| |entries IH] using node_entries_ind;
    [reflexivity | reflexivity |].
  rewrite dirs_only_Dir, !paths_Dir. f_equal.
  induction IH as [|[name child] es Hchild _ IHes]; [reflexivity|].
  cbn [filter flat_map fst snd]. cbn [snd] in Hchild.
  destruct (is_dir child) eqn:Hd.
  - cbn [map flat_map fst snd]. now rewrite Hchild, IHes.
  - rewrite IHes. destruct child; [reflexivity | discriminate | discriminate].
Qed.

(** C5 (concrete scenario). For a tree whose directories are
    "indigo-stubs", "indigo-stubs/foo" and "indigo-stubs/foo/bar" and no
    others, [list_packages] yields "indigo-stubs", "indigo-stubs.foo" and
    "indigo-stubs.foo.bar", and as a set exactly these three. *)
Theorem concrete_scenario (p : process) (src_path : string) (t : node) :
  PosixPath.isabs (getcwd p) = true ->
  lookup p (top_of src_path) = Some t ->
  wf_node t = true ->
  dirs_only t = foo_bar_tree ->
  list_packages p src_path
  = {| yielded := ["indigo-stubs"; "indigo-stubs.foo"; "indigo-stubs.foo.bar"];
       raised := None |}
  /\ forall x : string,
       In x (yielded (list_packages p src_path))
       <-> x = "indigo-stubs" \/ x = "indigo-stubs.foo"
           \/ x = "indigo-stubs.foo.bar".
Proof.
  intros Hcwd Ht Hwf Hdirs.
  rewrite (list_packages_names _ _ _ Hcwd Ht Hwf).
  rewrite <- paths_dirs_only, Hdirs.
  change (map dotted (paths foo_bar_tree))
    with ["indigo-stubs"; "indigo-stubs.foo"; "indigo-stubs.foo.bar"].
  split; [reflexivity|].
  intros x. cbn [yielded In]. intuition congruence.
Qed.

Lemma concrete_scenario_witness :
  list_packages (process_at "/home/u" "indigo-stubs" stub_tree) ""
  = {| yielded := ["indigo-stubs"; "indigo-stubs.foo"; "indigo-stubs.foo.bar"];
       raised := None |}.
Proof.
  apply (concrete_scenario
           (process_at "/home/u" "indigo-stubs" stub_tree) "" stub_tree);
    reflexivity.
Defined.

(** C6 (static metadata). The script reaches the [setup] call in every
    process, and passes the literal name, version, url, author, author
    email and description, an empty [install_requires], and a
    [package_data] that gives every package the pattern "*.pyi" and no
    other; only [packages] comes from the walk. *)
Theorem static_metadata (p : process) :
  setup_call p
  = Ok {| name := "indigo-stubs";
          version := "3.0.0";
          url := "https://github.com/mypackage.git";
          author := "Author Name";
          author_email := "author@gmail.com";
          description := "Description of my package";
          install_requires := [];
          packages := yielded (list_packages p "");
          package_data := [("", ["*.pyi"])] |}
  /\ forall pkg pattern : string,
       In pattern (data_patterns [("", ["*.pyi"])] pkg) <-> pattern = "*.pyi".
Proof.
  split.
  - unfold setup_call, list_of. rewrite list_packages_trace.
    cbn [raised]. now rewrite os_walk_raised.
  - intros pkg pattern. unfold data_patterns, dict_get. cbn [find fst snd].
    cbn [String.eqb]. destruct pkg as [|c pkg]; cbn; intuition congruence.
Qed.

(** [os.walk] is written over [os.scandir]: a path whose listing raises
    yields nothing, any other yields its triple and then its directories. *)
Lemma walk_node_scandir (top : string) (n : node) :
  walk_node top n
  = match scandir top (Some n) with
    | Raise _ => []
    | Ok entries =>
        (top, dirs_of entries, nondirs_of entries) :: walk_entries top entries
    end.
Proof. destruct n; [reflexivity | apply walk_node_Dir | reflexivity]. Qed.

Lemma scandir_raises_OSError (path : string) (n : option node) (e : exn) :
  scandir path n = Raise e -> is_OSError e = true.
Proof. destruct n as [[| |]|]; simpl; intros H; inversion H; reflexivity. Qed.




(** ** The shape of the names *)

Section NameFacts.

Lemma prefix_append (a b : string) : String.prefix a (a ++ b) = true.
Proof.
  induction a as [|x a IH]; simpl; [now destruct b|].
  destruct (ascii_dec x x); [exact IH | contradiction].
Qed.

Lemma contains_join (c : ascii) (sep : string) (pieces : list string) :
  Str.contains c sep = false ->
  Forall (fun piece => Str.contains c piece = false) pieces ->
  Str.contains c (Str.join sep pieces) = false.
Proof.
  intros Hsep Hall. induction Hall as [|piece rest Hp _ IH]; [reflexivity|].
  unfold Str.join in *. simpl. destruct rest; [exact Hp|].
  now rewrite !contains_append, Hp, Hsep, IH.
Qed.

Lemma dotted_nil : dotted [] = "indigo-stubs".
Proof. reflexivity. Qed.

Lemma dotted_cons (n : string) (names : list string) :
  dotted (n :: names) = ("indigo-stubs." ++ Str.join "." (n :: names))%string.
Proof. reflexivity. Qed.

Lemma dotted_snoc (names : list string) (c : string) :
  dotted (names ++ [c]) = (dotted names ++ "." ++ c)%string.
Proof.
  unfold dotted, Str.join. generalize stubs as s.
  induction names as [|n names IH]; intros s; [reflexivity|].
  change ((n :: names) ++ [c]) with (n :: (names ++ [c])).
  change (String.concat "." (s :: n :: names ++ [c]))
    with (s ++ "." ++ String.concat "." (n :: names ++ [c]))%string.
  rewrite IH.
  change (String.concat "." (s :: n :: names))
    with (s ++ "." ++ String.concat "." (n :: names))%string.
  now rewrite !append_assoc.
Qed.

End NameFacts.

(** C8. With the empty default for [src_path], in a well-formed tree,
    every string [list_packages] yields is "indigo-stubs" or starts with
    "indigo-stubs.", and holds no path separator. *)
Theorem names_prefixed_and_separator_free (p : process) (t : node) (x : string) :
  PosixPath.isabs (getcwd p) = true ->
  lookup p "indigo-stubs" = Some t ->
  wf_node t = true ->
  In x (yielded (list_packages p "")) ->
  (x = "indigo-stubs" \/ String.prefix "indigo-stubs." x = true)
  /\ Str.contains PosixPath.sep_char x = false.
Proof.
  intros Hcwd Ht Hwf Hx.
  rewrite (list_packages_names p "" t Hcwd Ht Hwf) in Hx. cbn [yielded] in Hx.
  apply in_map_iff in Hx. destruct Hx as (names & <- & Hin).
  pose proof (paths_valid t Hwf) as Hall. rewrite Forall_forall in Hall.
  specialize (Hall names Hin). split.
  - destruct names as [|n names]; [now left | right].
    rewrite dotted_cons. apply prefix_append.
  - unfold dotted. apply contains_join; [reflexivity|].
    constructor; [reflexivity|].
    eapply Forall_impl; [|exact Hall].
    intros n Hn. now apply valid_name_inv in Hn.
Qed.

Lemma names_prefixed_and_separator_free_witness :
  ("indigo-stubs.foo.bar" = "indigo-stubs"
   \/ String.prefix "indigo-stubs." "indigo-stubs.foo.bar" = true)
  /\ Str.contains PosixPath.sep_char "indigo-stubs.foo.bar" = false.
Proof.
  apply (names_prefixed_and_separator_free
           (process_at "/home/u" "indigo-stubs" stub_tree) stub_tree
           "indigo-stubs.foo.bar"); try reflexivity.
  cbn. tauto.
Defined.

(** ** The order of the names *)

Section OrderFacts.

Lemma dot_free_Dir (entries : list (string * node)) :
  dot_free (Dir entries)
  = forallb (fun e => if is_dir (snd e)
                      then negb (Str.contains "."%char (fst e))
                           && dot_free (snd e)
                      else true) entries.
Proof.
  simpl. induction entries as [|[name child] es IH]; [reflexivity|].
  simpl. now rewrite IH.
Qed.

Lemma paths_dot_free (n : node) :
  dot_free n = true ->
  Forall (fun names => Forall (fun x => Str.contains "."%char x = false) names)
         (paths n).
Proof.
  induction n as [| |entries IH] using node_entries_ind;
    [constructor | constructor |].
  rewrite dot_free_Dir, paths_Dir. intros Hdf.
  constructor; [constructor|].
  induction IH as [|[name child] es Hchild _ IHes]; [constructor|].
  cbn [forallb fst snd] in Hdf.
  apply andb_prop in Hdf. destruct Hdf as [Hhd Hes].
  cbn [flat_map fst snd]. apply Forall_app. split; [|now apply IHes].
  cbn [snd] in Hchild. destruct child as [|entries'|];
    [constructor | | constructor].
  cbn [is_dir] in Hhd. apply andb_prop in Hhd. destruct Hhd as [Hname Hc].
  apply negb_true_iff in Hname.
  apply Forall_map. eapply Forall_impl; [|exact (Hchild Hc)].
  intros names Hnames. now constructor.
Qed.

(** In the walk, the parent of a directory comes before the directory. *)
Lemma paths_parent (n : node) : forall (i : nat) (q : list string) (c : string),
  nth_error (paths n) i = Some (q ++ [c]) ->
  exists j, j < i /\ nth_error (paths n) j = Some q.
Proof.
  induction n as [| |entries IH] using node_entries_ind; intros i q c;
    [destruct i; discriminate | destruct i; discriminate |].
  rewrite paths_Dir. destruct i as [|i].
  { intros H. inversion H. now destruct q. }
  cbn [nth_error]. intros Hi.
  assert (Hbelow : q = [] \/
            exists j, j < i /\
              nth_error (flat_map (fun e => map (cons (fst e)) (paths (snd e)))
                                  entries) j = Some q).
  { revert i Hi. induction IH as [|[name child] es Hchild _ IHes]; intros i Hi.
    - destruct i; discriminate.
    - cbn [flat_map fst snd] in *. rewrite nth_error_app in Hi.
      rewrite length_map in Hi.
      destruct (Nat.ltb i (List.length (paths child))) eqn:Hlt.
      + apply Nat.ltb_lt in Hlt. rewrite nth_error_map in Hi.
        destruct (nth_error (paths child) i) as [r|] eqn:Hr; [|discriminate].
        cbn [option_map] in Hi. inversion Hi as [Hq].
        destruct q as [|n' q']; [now left | right].
        cbn [app] in Hq. inversion Hq; subst n' r.
        destruct (Hchild i q' c Hr) as (j & Hj & Hnth).
        exists j. split; [assumption|].
        rewrite nth_error_app1 by (rewrite length_map; lia).
        now rewrite nth_error_map, Hnth.
      + apply Nat.ltb_ge in Hlt.
        destruct (IHes _ Hi) as [Hq | (j & Hj & Hnth)]; [now left | right].
        exists (List.length (paths child) + j). split; [lia|].
        rewrite nth_error_app2 by (rewrite length_map; lia).
        rewrite length_map.
        replace (List.length (paths child) + j - List.length (paths child))
          with j by lia.
        exact Hnth. }
  destruct Hbelow as [-> | (j & Hj & Hnth)].
  - exists 0. split; [lia | reflexivity].
  - exists (S j). split; [lia | exact Hnth].
Qed.

(** So does every directory above it. *)
Lemma paths_prefix (n : node) (post : list string) :
  forall (i : nat) (pre : list string),
  post <> [] ->
  nth_error (paths n) i = Some (pre ++ post) ->
  exists j, j < i /\ nth_error (paths n) j = Some pre.
Proof.
  induction post as [|c post IH] using rev_ind; intros i pre Hne Hi;
    [contradiction|].
  rewrite app_assoc in Hi.
  destruct (paths_parent n i (pre ++ post) c Hi) as (j & Hj & Hnth).
  destruct post as [|x post'].
  - rewrite app_nil_r in Hnth. now exists j.
  - destruct (IH j pre ltac:(discriminate) Hnth) as (k & Hk & Hnth').
    exists k. split; [lia | exact Hnth'].
Qed.

End OrderFacts.

(** C10, as stated, fails: with a directory named "a.b" the name
    "indigo-stubs.a.b" is emitted, which is "indigo-stubs.a" + "." + "b",
    and "indigo-stubs.a" is emitted nowhere. *)
Lemma dotted_directory_name_breaks_parent_first :
  ~ parent_first
      (yielded (list_packages
                  (process_at "/home/u" "indigo-stubs" dotted_dir_tree) "")).
Proof.
  intros H. destruct (H 1 "indigo-stubs.a" "b" eq_refl) as (j & Hj & Hnth).
  assert (j = 0) by lia. subst j. discriminate Hnth.
Qed.

(** C10, amended. In a well-formed tree, the name of every directory below
    the root is [P ++ "." ++ c], for its own name [c] and the dotted name
    [P] of its parent, and [P] is emitted at an earlier position; and when
    no directory name holds a ".", every emitted name of the form
    [P ++ "." ++ c] has [P] at an earlier position. *)
Theorem parent_before_child (p : process) (src_path : string) (t : node) :
  PosixPath.isabs (getcwd p) = true ->
  lookup p (top_of src_path) = Some t ->
  wf_node t = true ->
  (forall (i : nat) (names : list string) (c : string),
      nth_error (paths t) i = Some (names ++ [c]) ->
      nth_error (yielded (list_packages p src_path)) i
      = Some (dotted names ++ "." ++ c)%string
      /\ exists j, j < i
           /\ nth_error (yielded (list_packages p src_path)) j
              = Some (dotted names))
  /\ (dot_free t = true ->
      parent_first (yielded (list_packages p src_path))).
Proof.
  intros Hcwd Ht Hwf.
  rewrite (list_packages_names _ _ _ Hcwd Ht Hwf). cbn [yielded].
  split.
  - intros i names c Hi. split.
    + now rewrite nth_error_map, Hi, <- dotted_snoc.
    + destruct (paths_parent t i names c Hi) as (j & Hj & Hnth).
      exists j. split; [assumption|]. now rewrite nth_error_map, Hnth.
  - intros Hdf i P c Hi. rewrite nth_error_map in Hi.
    destruct (nth_error (paths t) i) as [names|] eqn:Hnames; [|discriminate].
    cbn [option_map] in Hi. inversion Hi as [Hdot]. clear Hi.
    pose proof (paths_dot_free t Hdf) as Hall. rewrite Forall_forall in Hall.
    specialize (Hall names (nth_error_In _ _ Hnames)).
    apply (f_equal (Str.split "."%char)) in Hdot.
    unfold dotted in Hdot.
    rewrite (split_join "."%char) in Hdot
      by (discriminate || (constructor; [reflexivity | exact Hall])).
    change (P ++ "." ++ c)%string with (P ++ String "."%char c)%string in Hdot.
    rewrite split_append_sep in Hdot.
    destruct (Str.split "."%char P) as [|s0 pre] eqn:HP;
      [now apply split_not_nil in HP|].
    cbn [app] in Hdot. inversion Hdot as [[Hs0 Hrest]].
    destruct (paths_prefix t (Str.split "."%char c) i pre
                (split_not_nil _ _)) as (j & Hj & Hnth).
    { now rewrite <- Hrest. }
    exists j. split; [assumption|].
    rewrite nth_error_map, Hnth. cbn [option_map]. f_equal.
    rewrite <- (join_split "."%char P), HP, <- Hs0. reflexivity.
Qed.

Lemma parent_before_child_witness :
  parent_first
    (yielded (list_packages (process_at "/home/u" "indigo-stubs" stub_tree) "")).
Proof.
  apply (parent_before_child
           (process_at "/home/u" "indigo-stubs" stub_tree) "" stub_tree);
    reflexivity.
Defined.

(** * Further properties of [list_packages] and of the [setup] call *)

(** ** What the names depend on *)

(** X1 (relocation). The names do not depend on where the tree lies: the
    same well-formed tree, found under any [src_path] by a process in any
    working directory, gives the same names in the same order. *)
Theorem names_independent_of_location (p1 p2 : process)
    (src1 src2 : string) (t : node) :
  PosixPath.isabs (getcwd p1) = true ->
  PosixPath.isabs (getcwd p2) = true ->
  lookup p1 (top_of src1) = Some t ->
  lookup p2 (top_of src2) = Some t ->
  wf_node t = true ->
  list_packages p1 src1 = list_packages p2 src2.
Proof.
  intros Hc1 Hc2 Ht1 Ht2 Hwf.
  rewrite (list_packages_names _ _ _ Hc1 Ht1 Hwf).
  now rewrite (list_packages_names _ _ _ Hc2 Ht2 Hwf).
Qed.

Lemma names_independent_of_location_witness :
  list_packages (process_at "/home/u" "indigo-stubs" stub_tree) ""
  = list_packages (process_at "/srv" "/opt/src/../src//indigo-stubs" stub_tree)
                  "/opt/src/../src//".
Proof.
  apply (names_independent_of_location
           (process_at "/home/u" "indigo-stubs" stub_tree)
           (process_at "/srv" "/opt/src/../src//indigo-stubs" stub_tree)
           "" "/opt/src/../src//" stub_tree); reflexivity.
Defined.

(** X2 (regular files). Regular files do not show in the result: two trees
    with the same directories, found at the same path from the same working
    directory, give the same names, whatever files they hold. *)
Theorem names_ignore_regular_files (p1 p2 : process) (src_path : string)
    (t1 t2 : node) :
  getcwd p1 = getcwd p2 ->
  lookup p1 (top_of src_path) = Some t1 ->
  lookup p2 (top_of src_path) = Some t2 ->
  dirs_only t1 = dirs_only t2 ->
  list_packages p1 src_path = list_packages p2 src_path.
Proof.
  intros Hcwd Ht1 Ht2 Hdirs. apply gen_eq.
  - rewrite (list_packages_roots _ _ _ Ht1), (list_packages_roots _ _ _ Ht2).
    rewrite <- (paths_dirs_only t1), <- (paths_dirs_only t2), Hdirs, Hcwd.
    reflexivity.
  - now rewrite (list_packages_returns _ _ _ Ht1),
      (list_packages_returns _ _ _ Ht2).
Qed.

Lemma names_ignore_regular_files_witness :
  list_packages (process_at "/home/u" "indigo-stubs" stub_tree) ""
  = list_packages (process_at "/home/u" "indigo-stubs" foo_bar_tree) "".
Proof.
  apply (names_ignore_regular_files
           (process_at "/home/u" "indigo-stubs" stub_tree)
           (process_at "/home/u" "indigo-stubs" foo_bar_tree)
           "" stub_tree foo_bar_tree); reflexivity.
Defined.

(** ** How many names *)

Section CountFacts.


End CountFacts.



(** ** Which names *)

Section ReachFacts.

(** The walk reaches the directories at the end of a chain of listable
    directories, and no others. *)
Lemma paths_reachable (n : node) : forall names,
  In names (paths n) <-> reachable n names.
Proof.
  induction n as [| |entries IH] using node_entries_ind; intros names.
  - split; [contradiction | inversion 1].
  - split; [contradiction | inversion 1].
  - rewrite paths_Dir. rewrite Forall_forall in IH. split.
    + intros [<- | Hin]; [constructor|].
      apply in_flat_map in Hin. destruct Hin as ([name child] & He & Hin).
      cbn [fst snd] in Hin. apply in_map_iff in Hin.
      destruct Hin as (rest & <- & Hrest).
      apply (reach_below entries name child rest He).
      now apply (IH (name, child) He).
    + intros Hr. inversion Hr as [|es name child rest He Hchild];
        subst; [now left | right].
      apply in_flat_map. exists (name, child). split; [assumption|].
      cbn [fst snd]. apply in_map. now apply (IH (name, child) He).
Qed.

End ReachFacts.

(** X4 (which directories). In a well-formed tree a string is yielded
    exactly when it is the dotted name of a directory at the end of a chain
    of listable directories from the root: every such directory is named,
    and nothing else is, in particular nothing below a directory that
    cannot be listed. *)
Theorem names_are_the_reachable_directories (p : process)
    (src_path : string) (t : node) (x : string) :
  PosixPath.isabs (getcwd p) = true ->
  lookup p (top_of src_path) = Some t ->
  wf_node t = true ->
  In x (yielded (list_packages p src_path))
  <-> exists names, reachable t names /\ x = dotted names.
Proof.
  intros Hcwd Ht Hwf.
  rewrite (list_packages_names _ _ _ Hcwd Ht Hwf). cbn [yielded].
  rewrite in_map_iff. split.
  - intros (names & <- & Hin). exists names.
    split; [now apply paths_reachable | reflexivity].
  - intros (names & Hr & ->). exists names.
    split; [reflexivity | now apply paths_reachable].
Qed.

Lemma names_are_the_reachable_directories_witness :
  In "indigo-stubs.foo.bar"
     (yielded (list_packages (process_at "/home/u" "indigo-stubs" stub_tree) ""))
  <-> exists names, reachable stub_tree names
                    /\ "indigo-stubs.foo.bar" = dotted names.
Proof.
  apply (names_are_the_reachable_directories
           (process_at "/home/u" "indigo-stubs" stub_tree) "" stub_tree
           "indigo-stubs.foo.bar"); reflexivity.
Defined.

(** ** Names and directories, one to one *)

Section DistinctFacts.

Lemma distinct_NoDup (l : list string) : distinct l = true -> NoDup l.
Proof.
  induction l as [|x l IH]; [constructor|].
  cbn [distinct]. intros H. apply andb_prop in H. destruct H as [Hx Hl].
  constructor; [|now apply IH].
  intros Hin. apply negb_true_iff in Hx.
  assert (Hex : existsb (String.eqb x) l = true).
  { apply existsb_exists. exists x. split; [assumption | apply String.eqb_refl]. }
  congruence.
Qed.

Lemma unique_names_Dir (entries : list (string * node)) :
  unique_names (Dir entries)
  = distinct (dirs_of entries)
    && forallb (fun e => unique_names (snd e)) entries.
Proof.
  cbn [unique_names]. f_equal.
  induction entries as [|[name child] es IH]; [reflexivity|].
  cbn [forallb snd]. now rewrite IH.
Qed.

Lemma paths_nonempty_is_dir (n : node) (names : list string) :
  In names (paths n) -> is_dir n = true.
Proof. destruct n; [contradiction | reflexivity | contradiction]. Qed.

Lemma dirs_of_cons (e : string * node) (es : list (string * node)) :
  dirs_of (e :: es)
  = if is_dir (snd e) then fst e :: dirs_of es else dirs_of es.
Proof. unfold dirs_of. cbn [filter]. now destruct (is_dir (snd e)). Qed.

Lemma in_dirs_of (e : string * node) (es : list (string * node)) :
  In e es -> is_dir (snd e) = true -> In (fst e) (dirs_of es).
Proof.
  intros He Hd. unfold dirs_of. apply in_map. apply filter_In. now split.
Qed.

(** With different names for the directories of one directory, the walk
    visits no chain of names twice. *)
Lemma paths_NoDup (n : node) : unique_names n = true -> NoDup (paths n).
Proof.
  induction n as [| |entries IH] using node_entries_ind;
    [constructor | constructor |].
  rewrite unique_names_Dir, paths_Dir. intros H.
  apply andb_prop in H. destruct H as [Hdist Hall].
  apply distinct_NoDup in Hdist.
  constructor.
  { intros Hin. apply in_flat_map in Hin. destruct Hin as (e & _ & Hin).
    apply in_map_iff in Hin. destruct Hin as (rest & Hrest & _). discriminate. }
  induction IH as [|[name child] es Hchild _ IHes]; [constructor|].
  cbn [forallb snd] in Hall. apply andb_prop in Hall.
  destruct Hall as [Hc Hes]. cbn [snd] in Hchild.
  rewrite dirs_of_cons in Hdist. cbn [fst snd] in Hdist.
  cbn [flat_map fst snd]. apply NoDup_app.
  - apply NoDup_map_NoDup_ForallPairs; [|now apply Hchild].
    intros a b _ _ Hab. now inversion Hab.
  - apply IHes; [|assumption].
    destruct (is_dir child); [now inversion Hdist | assumption].
  - intros names Hin Hin'.
    apply in_map_iff in Hin. destruct Hin as (rest & <- & Hrest).
    rewrite (paths_nonempty_is_dir _ _ Hrest) in Hdist.
    apply in_flat_map in Hin'. destruct Hin' as ([name' child'] & He & Hin').
    cbn [fst snd] in Hin'. apply in_map_iff in Hin'.
    destruct Hin' as (rest' & Heq & Hrest'). inversion Heq; subst name' rest'.
    inversion Hdist as [|? ? Hnotin _]; subst. apply Hnotin.
    apply (in_dirs_of (name, child') es He).
    exact (paths_nonempty_is_dir _ _ Hrest').
Qed.

(** Chains of names without "." have different dotted names. *)
Lemma split_dotted (names : list string) :
  Forall (fun x => Str.contains "."%char x = false) names ->
  Str.split "."%char (dotted names) = stubs :: names.
Proof.
  intros Hall. unfold dotted.
  apply (split_join "."%char); [discriminate|].
  constructor; [reflexivity | exact Hall].
Qed.

Lemma dotted_injective (a b : list string) :
  Forall (fun x => Str.contains "."%char x = false) a ->
  Forall (fun x => Str.contains "."%char x = false) b ->
  dotted a = dotted b -> a = b.
Proof.
  intros Ha Hb Heq. apply (f_equal (Str.split "."%char)) in Heq.
  rewrite (split_dotted _ Ha), (split_dotted _ Hb) in Heq.
  now inversion Heq.
Qed.

End DistinctFacts.

(** X5 (no duplicates). In a well-formed tree where no directory name holds
    a "." and no directory holds two directories of the same name, no name
    is yielded twice. *)
Theorem names_are_distinct (p : process) (src_path : string) (t : node) :
  PosixPath.isabs (getcwd p) = true ->
  lookup p (top_of src_path) = Some t ->
  wf_node t = true ->
  dot_free t = true ->
  unique_names t = true ->
  NoDup (yielded (list_packages p src_path)).
Proof.
  intros Hcwd Ht Hwf Hdf Hun.
  rewrite (list_packages_names _ _ _ Hcwd Ht Hwf). cbn [yielded].
  pose proof (paths_dot_free t Hdf) as Hall. rewrite Forall_forall in Hall.
  apply NoDup_map_NoDup_ForallPairs; [|now apply paths_NoDup].
  intros a b Ha Hb. apply dotted_injective; now apply Hall.
Qed.

Lemma names_are_distinct_witness :
  NoDup (yielded (list_packages
                    (process_at "/home/u" "indigo-stubs" stub_tree) "")).
Proof.
  apply (names_are_distinct
           (process_at "/home/u" "indigo-stubs" stub_tree) "" stub_tree);
    reflexivity.
Defined.

(** X6 (back to the path). In a well-formed tree where no directory name
    holds a ".", the name yielded for a directory leads back to it:
    split on "." and joined with "/", it is the path of the directory
    relative to [src_path]. *)
Theorem name_gives_back_relative_path (p : process) (src_path : string)
    (t : node) (i : nat) (it : walk_item) (x : string) :
  PosixPath.isabs (getcwd p) = true ->
  lookup p (top_of src_path) = Some t ->
  wf_node t = true ->
  dot_free t = true ->
  nth_error (yielded (os_walk p (top_of src_path))) i = Some it ->
  nth_error (yielded (list_packages p src_path)) i = Some x ->
  PosixPath.relpath (getcwd p) (item_root it) src_path
  = Ok (Str.join PosixPath.sep (Str.split "."%char x)).
Proof.
  intros Hcwd Ht Hwf Hdf Hit Hx.
  rewrite (list_packages_names _ _ _ Hcwd Ht Hwf) in Hx. cbn [yielded] in Hx.
  rewrite nth_error_map in Hx.
  destruct (nth_error (paths t) i) as [names|] eqn:Hnames; [|discriminate].
  cbn [option_map] in Hx. inversion Hx as [Hdot]. clear Hx.
  destruct (visited_relpath _ _ _ _ _ Hcwd Ht Hwf Hnames)
    as (it' & Hit' & _ & Hrel).
  rewrite Hit in Hit'. inversion Hit'; subst it'.
  rewrite Hrel. f_equal. f_equal. symmetry. apply split_dotted.
  pose proof (paths_dot_free t Hdf) as Hall. rewrite Forall_forall in Hall.
  exact (Hall names (nth_error_In _ _ Hnames)).
Qed.

Lemma name_gives_back_relative_path_witness :
  PosixPath.relpath "/home/u" "indigo-stubs/foo/bar" ""
  = Ok (Str.join PosixPath.sep (Str.split "."%char "indigo-stubs.foo.bar")).
Proof.
  apply (name_gives_back_relative_path
           (process_at "/home/u" "indigo-stubs" stub_tree) "" stub_tree 2
           ("indigo-stubs/foo/bar", [], ["__init__.pyi"])
           "indigo-stubs.foo.bar");
    reflexivity.
Defined.

(** ** Any walk primitive, any [src_path] *)

Section AnyWalkFacts.

(** What it returns holds no separator. *)
Lemma package_name_no_sep (cwd src_path root x : string) :
  package_name cwd src_path root = Ok x ->
  Str.contains PosixPath.sep_char x = false.
Proof.
  unfold package_name.
  destruct (PosixPath.relpath cwd root src_path) as [rel|]; [|discriminate].
  intros H. inversion H. apply contains_join; [reflexivity|].
  apply split_pieces.
Qed.

Lemma for_yield_In {A B : Type} (body : A -> result B) (items : list A)
    (stop : option exn) (b : B) :
  In b (yielded (for_yield items stop body)) ->
  exists x, In x items /\ body x = Ok b.
Proof.
  induction items as [|x items IH]; [contradiction|].
  cbn [for_yield]. destruct (body x) as [b'|] eqn:Hx; [|contradiction].
  cbn [yielded]. intros [<- | Hin].
  - exists x. split; [now left | assumption].
  - destruct (IH Hin) as (x' & Hin' & Hx'). exists x'. split; [now right | assumption].
Qed.

Lemma for_yield_returns {A B : Type} (body : A -> result B) (items : list A)
    (stop : option exn) :
  raised (for_yield items stop body) = None ->
  stop = None
  /\ List.length (yielded (for_yield items stop body)) = List.length items.
Proof.
  induction items as [|x items IH]; [now split|].
  cbn [for_yield]. destruct (body x) as [b|]; [|discriminate].
  cbn [yielded raised List.length]. intros H.
  destruct (IH H) as [Hstop Hlen]. now rewrite Hlen.
Qed.


End AnyWalkFacts.

(** X7 (no separator, ever). No string [list_packages] yields holds a path
    separator: this needs nothing of the tree, of [src_path] or of the
    working directory. *)
Theorem names_never_hold_separator (p : process) (src_path x : string) :
  In x (yielded (list_packages p src_path)) ->
  Str.contains PosixPath.sep_char x = false.
Proof.
  unfold list_packages, list_packages_with. intros Hin.
  apply for_yield_In in Hin. destruct Hin as (it & _ & Hit).
  exact (package_name_no_sep _ _ _ _ Hit).
Qed.

Lemma names_never_hold_separator_witness :
  Str.contains PosixPath.sep_char "indigo-stubs.a.b" = false.
Proof.
  apply (names_never_hold_separator
           (process_at "/home/u" "x/y/indigo-stubs" dotted_dir_tree)
           "x/y" "indigo-stubs.a.b").
  cbn. tauto.
Defined.

(** X8 (normal return). Over any walk primitive, when [list_packages]
    returns without raising, the walk returned without raising and every
    element of the walk got its name: no directory the walk yields is
    dropped. *)
Theorem normal_return_names_every_root (walk : string -> gen walk_item)
    (cwd src_path : string) :
  raised (list_packages_with walk cwd src_path) = None ->
  raised (walk (top_of src_path)) = None
  /\ List.length (yielded (list_packages_with walk cwd src_path))
     = List.length (yielded (walk (top_of src_path))).
Proof.
  unfold list_packages_with. intros H. exact (for_yield_returns _ _ _ H).
Qed.

Lemma normal_return_names_every_root_witness :
  raised (two_roots_walk (top_of "")) = None
  /\ List.length (yielded (list_packages_with two_roots_walk "/home/u" ""))
     = List.length (yielded (two_roots_walk (top_of ""))).
Proof.
  apply (normal_return_names_every_root two_roots_walk "/home/u" "").
  reflexivity.
Defined.



(** ** The [setup] call *)

(** X10 (empty distribution). The script reaches [setup] whatever is found
    at "indigo-stubs", and the package list it passes is empty exactly when
    no directory that can be listed is found there: a missing directory is
    not an error, it gives a distribution without packages. *)
Theorem packages_empty_iff_no_directory (p : process) (d : distribution) :
  setup_call p = Ok d ->
  packages d = []
  <-> forall entries, lookup p "indigo-stubs" <> Some (Dir entries).
Proof.
  unfold setup_call, list_of. rewrite list_packages_trace.
  cbn [raised yielded]. rewrite os_walk_raised, os_walk_yielded.
  change (top_of "") with "indigo-stubs".
  change (Str.contains nul "indigo-stubs") with false. cbv iota.
  intros H. inversion H as [Hd]. cbn [packages].
  destruct (lookup p "indigo-stubs") as [[| entries |]|].
  - split; [discriminate | reflexivity].
  - rewrite walk_node_Dir. split; [discriminate|].
    intros Hno. now destruct (Hno entries).
  - split; [discriminate | reflexivity].
  - split; [discriminate | reflexivity].
Qed.

Lemma packages_empty_iff_no_directory_witness :
  packages
    {| name := "indigo-stubs";
       version := "3.0.0";
       url := "https://github.com/mypackage.git";
       author := "Author Name";
       author_email := "author@gmail.com";
       description := "Description of my package";
       install_requires := [];
       packages := [];
       package_data := [("", ["*.pyi"])] |} = []
  <-> forall entries,
        lookup (process_at "/home/u" "elsewhere" stub_tree) "indigo-stubs"
        <> Some (Dir entries).
Proof.
  apply (packages_empty_iff_no_directory
           (process_at "/home/u" "elsewhere" stub_tree)).
  reflexivity.
Defined.
